(** * A shallow embedding of the RESP codec of archer (parser.go)

    Byte slices ([]byte) are lists of 8-bit [ascii] characters; a buffered
    reader is the list of bytes still to be read, the end of the list being
    the end of the stream.  Go's two results [(Resp, error)] and its runtime
    panics are made explicit in [outcome]. *)

From Stdlib Require Import List Ascii String Arith ZArith Lia Bool.
Import ListNotations.

Open Scope list_scope.

Definition bytes := list ascii.

(** Byte-slice literal: [bs "PING"] is []byte("PING"). *)
Definition bs (s : string) : bytes := list_ascii_of_string s.

Definition LF : ascii := "010"%char.
Definition CR : ascii := "013"%char.
Definition CRLF : bytes := [CR; LF].

Definition Space : ascii := " "%char.
Definition SimpSep : ascii := "+"%char.
Definition ErrSep : ascii := "-"%char.
Definition IntSep : ascii := ":"%char.
Definition BulkSep : ascii := "$"%char.
Definition ArrSep : ascii := "*"%char.

Definition SimpleType : string := "simple".
Definition ErrorType : string := "error".
Definition IntType : string := "int".
Definition BulkType : string := "bulk".
Definition ArrayType : string := "array".

Definition PING : bytes := bs "PING".
Definition QUIT : bytes := bs "QUIT".

(** ** The util package: integer/length codec

    [util.Itob] and [util.ParseLen] belong to the archer repository but
    are not part of the sources at hand. *)

Definition digit (d : nat) : ascii := ascii_of_nat (48 + d).

Definition is_digit (c : ascii) : bool :=
  (48 <=? nat_of_ascii c) && (nat_of_ascii c <=? 57).

Fixpoint itob_fuel (fuel n : nat) : bytes :=
  match fuel with
  | 0 => []
  | S f => (if n <? 10 then [] else itob_fuel f (n / 10)) ++ [digit (n mod 10)]
  end.

(** Modelled from the spec: [util.Itob], "non-negative integer -> ASCII
    decimal byte sequence" (most significant digit first, no leading
    zeros). *)
Definition Itob (n : nat) : bytes := itob_fuel (S n) n.

Definition parse_digits (s : bytes) : nat :=
  fold_left (fun acc c => acc * 10 + (nat_of_ascii c - 48)) s 0.

(** Modelled from the spec: [util.ParseLen], "ASCII decimal byte sequence
    -> integer, accepting an optional leading minus sign only for the
    literal sentinel value -1, failing with a parse error on any other
    non-digit content"; [None] is the parse error. *)
Definition ParseLen (s : bytes) : option Z :=
  if list_eq_dec ascii_dec s (bs "-1") then Some (-1)%Z
  else match s with
       | [] => None
       | _ => if forallb is_digit s then Some (Z.of_nat (parse_digits s))
              else None
       end.

(** ** The protocol values

    [BaseResp] is the embedded struct; [BulkRec] is a [BulkResp]; the
    interface [Resp] is the sum of the five concrete pointer types.  The
    [Args] field of the [BaseResp] embedded in an [ArrayResp] is shadowed by
    the [ArrayResp.Args] field and never read or written in parser.go, so
    only the [Rtype] of that embedded struct is kept. *)

Record BaseResp := { Rtype : string; Args : list bytes }.

Record BulkRec := { bbase : BaseResp; Empty : bool }.

Inductive Resp :=
| SimpleResp (b : BaseResp)
| ErrorResp (b : BaseResp)
| IntResp (b : BaseResp)
| BulkResp (b : BulkRec)
| ArrayResp (rtype : string) (args : list BulkRec).

(** [Length()]: [BaseResp.Length] for four kinds, [ArrayResp.Length] for
    arrays (Go [int]). *)
Definition Length (r : Resp) : Z :=
  match r with
  | ArrayResp _ args => (Z.of_nat (List.length args) - 1)%Z
  | _ => 0%Z
  end.

(** ** Encoding *)

(** Result of an [Encode()] call: the bytes, the [panic(e)] of the type
    check, or a runtime panic (index out of range on [Args[0]]). *)
Inductive enc_outcome :=
| EncOk (b : bytes)
| EncAssert (msg : string)
| EncIndexPanic.

Definition arg0 (args : list bytes) (k : bytes -> enc_outcome) : enc_outcome :=
  match args with
  | a :: _ => k a
  | [] => EncIndexPanic
  end.

Definition encode_line (sep : ascii) (tname : string) (who : string)
    (br : BaseResp) : enc_outcome :=
  if negb (String.eqb (Rtype br) tname) then
    EncAssert (who ++ " Encode Type error: " ++ Rtype br ++ ", expected " ++ tname)%string
  else arg0 (Args br) (fun a => EncOk ([sep] ++ a ++ CRLF)).

Definition BulkEncode (br : BulkRec) : enc_outcome :=
  if negb (String.eqb (Rtype (bbase br)) BulkType) then
    EncAssert ("BulkResp Encode Type error: " ++ Rtype (bbase br)
               ++ ", expected " ++ BulkType)%string
  else if Empty br then EncOk (bs "$-1" ++ CRLF)
  else arg0 (Args (bbase br))
         (fun a => EncOk ([BulkSep] ++ Itob (List.length a) ++ CRLF ++ a ++ CRLF)).

(** The loop [for _, arg := range ar.Args { b.Write(arg.Encode()) }]. *)
Fixpoint encode_children (acc : bytes) (args : list BulkRec) : enc_outcome :=
  match args with
  | [] => EncOk acc
  | a :: rest =>
      match BulkEncode a with
      | EncOk e => encode_children (acc ++ e) rest
      | other => other
      end
  end.

Definition ArrayEncode (rtype : string) (args : list BulkRec) : enc_outcome :=
  if negb (String.eqb rtype ArrayType) then
    EncAssert ("ArrayResp Encode Type error: " ++ rtype ++ ", expected " ++ ArrayType)%string
  else encode_children ([ArrSep] ++ Itob (List.length args) ++ CRLF) args.

Definition Encode (r : Resp) : enc_outcome :=
  match r with
  | SimpleResp b => encode_line SimpSep SimpleType "SimpleResp" b
  | ErrorResp b => encode_line ErrSep ErrorType "ErrorResp" b
  | IntResp b => encode_line IntSep IntType "IntResp" b
  | BulkResp b => BulkEncode b
  | ArrayResp t args => ArrayEncode t args
  end.

(** [WriteProtocol]: the sink is the list of bytes already flushed; writing
    and flushing an in-memory sink does not fail. *)
Inductive write_outcome :=
| WOk (sink : bytes)
| WPanic.

Definition WriteProtocol (w : bytes) (r : Resp) : write_outcome :=
  match Encode r with
  | EncOk b => WOk (w ++ b)
  | _ => WPanic
  end.

(** ** Decoding *)

(** [bufio.Reader.ReadBytes('\n')]: the bytes up to and including the first
    line feed, or the end-of-stream error when there is none. *)
Fixpoint readBytes (s : bytes) : option (bytes * bytes) :=
  match s with
  | [] => None
  | c :: t =>
      if ascii_dec c LF then Some ([c], t)
      else match readBytes t with
           | Some (l, r) => Some (c :: l, r)
           | None => None
           end
  end.

(** [io.ReadFull(r, buf)] with [len(buf) = k]: exactly [k] bytes, or an
    error (end of stream, [n < k]). *)
Definition readFull (k : nat) (s : bytes) : option (bytes * bytes) :=
  if k <=? List.length s then Some (firstn k s, skipn k s) else None.

(** Go slice expression [l[lo:hi]]; [None] is the runtime panic
    "slice bounds out of range". *)
Definition go_slice (lo hi : nat) (l : bytes) : option bytes :=
  if (lo <=? hi) && (hi <=? List.length l) then Some (firstn (hi - lo) (skipn lo l))
  else None.

Inductive error :=
| EIO                       (* error of the underlying reader *)
| EParse                    (* error of util.ParseLen *)
| EFraming                  (* "In  ReadResp ArrSep, must read BulkResp" *)
| EInline                   (* "raw command must be quit or ping" *)
| EUnexpected (line : bytes). (* "ReadResp error, unexpected: " + line ... *)

(** Result of a [ReadProtocol] call: a value and a nil error (with the
    bytes left in the reader), a nil value and an error, a nil value and a
    nil error, or a runtime panic.  [OutOfFuel] is the exhausted recursion
    budget of the embedding (never reached by [read_value], see
    [ReadProtocol_fuel_enough]). *)
Inductive outcome :=
| Ok (v : Resp) (rest : bytes)
| Fail (e : error)
| RetNilNil
| Panic
| OutOfFuel.

Inductive loop_outcome :=
| LDone (args : list BulkRec) (rest : bytes)
| LStop (o : outcome).

(** The loop of the [ArrSep] case: [n] calls of [ReadProtocol], each result
    asserted to be a [*BulkResp] (the type assertion fails on a nil
    interface too). *)
Fixpoint read_children (rp : bytes -> outcome) (n : nat) (r : bytes)
    : loop_outcome :=
  match n with
  | 0 => LDone [] r
  | S n' =>
      match rp r with
      | Ok (BulkResp br) r' =>
          match read_children rp n' r' with
          | LDone l r'' => LDone (br :: l) r''
          | LStop o => LStop o
          end
      | Ok _ _ => LStop (Fail EFraming)
      | Fail e => LStop (Fail e)
      | RetNilNil => LStop (Fail EFraming)
      | Panic => LStop Panic
      | OutOfFuel => LStop OutOfFuel
      end
  end.

Definition bulk_of (p : bytes) : BulkRec :=
  {| bbase := {| Rtype := BulkType; Args := [p] |}; Empty := false |}.

Definition null_bulk : BulkRec :=
  {| bbase := {| Rtype := BulkType; Args := [] |}; Empty := true |}.

Definition base (t : string) (p : bytes) : BaseResp := {| Rtype := t; Args := [p] |}.

Definition is_char (c d : ascii) : bool := if ascii_dec c d then true else false.

(** The [switch res[0]] of [ReadProtocol], on the line [res] just read and
    the reader [r] after it; [rp] is the recursive [ReadProtocol]. *)
Definition dispatch (rp : bytes -> outcome) (res r : bytes) : outcome :=
  match res with
  | [] => Panic (* res[0] on an empty slice; ReadBytes never returns one *)
  | c :: _ =>
  let body := go_slice 1 (List.length res - 2) res in
  if is_char c SimpSep then
    match body with
    | None => Panic
    | Some p => Ok (SimpleResp (base SimpleType p)) r
    end
  else if is_char c ErrSep then
    match body with
    | None => Panic
    | Some p => Ok (ErrorResp (base ErrorType p)) r
    end
  else if is_char c IntSep then
    match body with
    | None => Panic
    | Some p => Ok (IntResp (base IntType p)) r
    end
  else if is_char c BulkSep then
    match body with
    | None => Panic
    | Some p =>
      match ParseLen p with
      | None => Fail EParse
      | Some l =>
        if Z.eqb l (-1) then Ok (BulkResp null_bulk) r
        (* make([]byte, l+2) panics below -2; for -2 so does buf[:len(buf)-2] *)
        else if Z.ltb l (-1) then Panic
        else match readFull (Z.to_nat l + 2) r with
             | None => RetNilNil (* return nil, err  -- err is the nil ParseLen error *)
             | Some (buf, r') =>
                 Ok (BulkResp (bulk_of (firstn (List.length buf - 2) buf))) r'
             end
      end
    end
  else if is_char c ArrSep then
    match body with
    | None => Panic
    | Some p =>
      match ParseLen p with
      | None => Fail EParse
      | Some n =>
        match read_children rp (Z.to_nat n) r with
        | LDone l r' => Ok (ArrayResp ArrayType l) r'
        | LStop o => o
        end
      end
    end
  else if is_char c "Q"%char || is_char c "q"%char then
    if negb (List.length res =? 6) then Fail EInline
    else Ok (ArrayResp ArrayType [bulk_of QUIT]) r
  else if is_char c "p"%char || is_char c "P"%char then
    if negb (List.length res =? 6) then Fail EInline
    else Ok (ArrayResp ArrayType [bulk_of PING]) r
  else Fail (EUnexpected res)
  end.

Fixpoint ReadProtocol_fuel (fuel : nat) (s : bytes) : outcome :=
  match fuel with
  | 0 => OutOfFuel
  | S f =>
      match readBytes s with
      | None => Fail EIO
      | Some (res, r) => dispatch (ReadProtocol_fuel f) res r
      end
  end.

(** [ReadProtocol(r)]: every call consumes at least one byte, so a budget
    of one more than the stream length is never exhausted. *)
Definition read_value (s : bytes) : outcome :=
  ReadProtocol_fuel (S (List.length s)) s.

(** ** Constructible values (the per-variant invariants)

    Simple, Error and Integer values hold one payload; it must not contain
    the line feed that ends the header line.  A bulk value is null with no
    element, or non-null with one element of arbitrary bytes.  An array
    holds bulk values only. *)

Definition line_invariant (t : string) (b : BaseResp) : Prop :=
  Rtype b = t /\ exists p, Args b = [p] /\ ~ In LF p.

Definition bulk_invariant (b : BulkRec) : Prop :=
  Rtype (bbase b) = BulkType /\
  ((Empty b = true /\ Args (bbase b) = [])
   \/ (Empty b = false /\ exists a, Args (bbase b) = [a])).

Definition constructible (v : Resp) : Prop :=
  match v with
  | SimpleResp b => line_invariant SimpleType b
  | ErrorResp b => line_invariant ErrorType b
  | IntResp b => line_invariant IntType b
  | BulkResp b => bulk_invariant b
  | ArrayResp t l => t = ArrayType /\ Forall bulk_invariant l
  end.

(** ** Well-formed wire frames of the five kinds

    Lengths and counts are written as [Itob] writes them; Simple, Error and
    Integer payloads hold no line feed; bulk payloads are arbitrary bytes;
    array children are bulk frames, null or not. *)

Inductive bulk_frame : bytes -> Prop :=
| bf_null : bulk_frame ([BulkSep] ++ bs "-1" ++ CRLF)
| bf_data (a : bytes) :
    bulk_frame ([BulkSep] ++ Itob (List.length a) ++ CRLF ++ a ++ CRLF).

Inductive wf_frame : bytes -> Prop :=
| wf_simple (p : bytes) : ~ In LF p -> wf_frame ([SimpSep] ++ p ++ CRLF)
| wf_error (p : bytes) : ~ In LF p -> wf_frame ([ErrSep] ++ p ++ CRLF)
| wf_int (p : bytes) : ~ In LF p -> wf_frame ([IntSep] ++ p ++ CRLF)
| wf_bulk (fr : bytes) : bulk_frame fr -> wf_frame fr
| wf_array (frs : list bytes) :
    Forall bulk_frame frs ->
    wf_frame ([ArrSep] ++ Itob (List.length frs) ++ CRLF ++ List.concat frs).

(** A decoder that strictly shortens the stream whenever it returns a value. *)
Definition consumes (rp : bytes -> outcome) : Prop :=
  forall t v t', rp t = Ok v t' -> List.length t' < List.length t.

(** Successive [ReadProtocol] calls on [s] return the bulk values [l], in
    order, and leave [r]. *)
Inductive decodes_bulks : bytes -> list BulkRec -> bytes -> Prop :=
| db_nil (s : bytes) : decodes_bulks s [] s
| db_cons (s r r' : bytes) (b : BulkRec) (l : list BulkRec) :
    read_value s = Ok (BulkResp b) r -> decodes_bulks r l r' ->
    decodes_bulks s (b :: l) r'.

(** The kind tag of a value matches the [Encode] method of its concrete
    type; [tags_ok] also asks it of the children of an array. *)
Definition own_tag_ok (v : Resp) : Prop :=
  match v with
  | SimpleResp b => Rtype b = SimpleType
  | ErrorResp b => Rtype b = ErrorType
  | IntResp b => Rtype b = IntType
  | BulkResp b => Rtype (bbase b) = BulkType
  | ArrayResp t _ => t = ArrayType
  end.

Definition tags_ok (v : Resp) : Prop :=
  own_tag_ok v /\
  match v with
  | ArrayResp _ l => Forall (fun b => Rtype (bbase b) = BulkType) l
  | _ => True
  end.

Definition is_bulk (v : Resp) : bool :=
  match v with BulkResp _ => true | _ => false end.

(** ** [Type()] and [String()] *)

(** [Type()]: the [Rtype] field of the embedded [BaseResp]. *)
Definition Type_ (r : Resp) : string :=
  match r with
  | SimpleResp b | ErrorResp b | IntResp b => Rtype b
  | BulkResp b => Rtype (bbase b)
  | ArrayResp t _ => t
  end.

(** [bytes.Join] and [strings.Join]: the elements separated by [sep]. *)
Fixpoint join (sep : bytes) (l : list bytes) : bytes :=
  match l with
  | [] => []
  | [x] => x
  | x :: t => x ++ sep ++ join sep t
  end.

(** [BaseResp.String]: the arguments joined by a space. *)
Definition BaseString (br : BaseResp) : bytes := join [Space] (Args br).

(** [ArrayResp.String]: the [String()] of the children joined by a space. *)
Definition ArrayString (args : list BulkRec) : bytes :=
  join [Space] (map (fun b => BaseString (bbase b)) args).

Definition String_ (r : Resp) : bytes :=
  match r with
  | SimpleResp b | ErrorResp b | IntResp b => BaseString b
  | BulkResp b => BaseString (bbase b)
  | ArrayResp _ args => ArrayString args
  end.

(** The kind a successful [ReadProtocol] gives to a line, by its first
    byte. *)
Definition sigil_type (c : ascii) : string :=
  if is_char c SimpSep then SimpleType
  else if is_char c ErrSep then ErrorType
  else if is_char c IntSep then IntType
  else if is_char c BulkSep then BulkType
  else ArrayType.


(** ** Properties of the length codec *)

Lemma parse_digits_snoc (l : bytes) (c : ascii) :
  parse_digits (l ++ [c]) = parse_digits l * 10 + (nat_of_ascii c - 48).
Proof. unfold parse_digits. now rewrite fold_left_app. Qed.

Lemma nat_of_digit (d : nat) : d < 10 -> nat_of_ascii (digit d) = 48 + d.
Proof. intros Hd. unfold digit. apply nat_ascii_embedding. lia. Qed.

Lemma itob_fuel_spec (k n : nat) :
  n < k ->
  parse_digits (itob_fuel k n) = n /\ forallb is_digit (itob_fuel k n) = true
  /\ itob_fuel k n <> [].
Proof.
  revert n; induction k as [|k IH]; intros n Hn; [lia|].
  assert (Hm : n mod 10 < 10) by (apply Nat.mod_upper_bound; lia).
  assert (Hdig : is_digit (digit (n mod 10)) = true).
  { unfold is_digit. rewrite nat_of_digit by exact Hm.
    apply andb_true_intro; split; apply Nat.leb_le; lia. }
  cbn [itob_fuel]. split; [|split].
  - rewrite parse_digits_snoc, nat_of_digit by exact Hm.
    destruct (n <? 10) eqn:E.
    + apply Nat.ltb_lt in E. rewrite Nat.mod_small by exact E. cbn. lia.
    + apply Nat.ltb_ge in E.
      destruct (IH (n / 10)) as [IHp _].
      { assert (n / 10 < n) by (apply Nat.div_lt; lia). lia. }
      rewrite IHp. pose proof (Nat.div_mod_eq n 10). lia.
  - rewrite forallb_app. cbn [forallb]. rewrite Hdig, andb_true_r.
    destruct (n <? 10) eqn:E; [reflexivity|].
    apply Nat.ltb_ge in E.
    apply (IH (n / 10)).
    assert (n / 10 < n) by (apply Nat.div_lt; lia). lia.
  - intros H. apply app_eq_nil in H. destruct H as [_ H]. discriminate.
Qed.

Lemma ParseLen_Itob (n : nat) : ParseLen (Itob n) = Some (Z.of_nat n).
Proof.
  destruct (itob_fuel_spec (S n) n) as [Hp [Hd Hne]]; [lia|].
  unfold ParseLen, Itob.
  destruct (list_eq_dec ascii_dec (itob_fuel (S n) n) (bs "-1")) as [E|_].
  { rewrite E in Hd. discriminate. }
  destruct (itob_fuel (S n) n) as [|c l] eqn:E; [congruence|].
  rewrite Hd. now rewrite Hp.
Qed.

Lemma is_digit_not_LF (c : ascii) : is_digit c = true -> c <> LF.
Proof. intros H ->. discriminate. Qed.

Lemma Itob_no_LF (n : nat) : ~ In LF (Itob n).
Proof.
  destruct (itob_fuel_spec (S n) n) as [_ [Hd _]]; [lia|].
  unfold Itob. intros Hin.
  apply (proj1 (forallb_forall _ _)) with (x := LF) in Hd; [|exact Hin].
  discriminate.
Qed.

(** ** Reading a header line *)

Lemma readBytes_app (l r : bytes) :
  ~ In LF l -> readBytes (l ++ LF :: r) = Some (l ++ [LF], r).
Proof.
  induction l as [|c l IH]; intros Hl.
  - reflexivity.
  - cbn. destruct (ascii_dec c LF) as [E|_].
    + exfalso. apply Hl. now left.
    + rewrite IH; [reflexivity|]. intros H. apply Hl. now right.
Qed.

Lemma CR_not_LF : CR <> LF.
Proof. discriminate. Qed.

(** A header line [c] [p] CR LF, [p] without a line feed. *)
Lemma readBytes_line (c : ascii) (p r : bytes) :
  c <> LF -> ~ In LF p ->
  readBytes (c :: p ++ CR :: LF :: r) = Some (c :: p ++ [CR; LF], r).
Proof.
  intros Hc Hp.
  replace (c :: p ++ CR :: LF :: r) with ((c :: p ++ [CR]) ++ LF :: r)
    by (cbn; now rewrite <- app_assoc).
  rewrite readBytes_app.
  - cbn. now rewrite <- app_assoc.
  - intros [H|H]; [congruence|].
    apply in_app_or in H. destruct H as [H|[H|[]]]; [tauto|].
    apply CR_not_LF; congruence.
Qed.

Lemma body_line (c : ascii) (p : bytes) :
  go_slice 1 (List.length (c :: p ++ [CR; LF]) - 2) (c :: p ++ [CR; LF]) = Some p.
Proof.
  unfold go_slice.
  assert (Hl : List.length (c :: p ++ [CR; LF]) = S (List.length p + 2))
    by (cbn [List.length]; now rewrite length_app).
  rewrite Hl.
  replace ((1 <=? S (List.length p + 2) - 2) && (S (List.length p + 2) - 2 <=? S (List.length p + 2)))
    with true by (symmetry; apply andb_true_intro; split; apply Nat.leb_le; lia).
  replace (S (List.length p + 2) - 2 - 1) with (List.length p) by lia.
  cbn [skipn].
  now rewrite firstn_app, firstn_all, Nat.sub_diag, app_nil_r.
Qed.

Lemma ReadProtocol_line (f : nat) (c : ascii) (p r : bytes) :
  c <> LF -> ~ In LF p ->
  ReadProtocol_fuel (S f) (c :: p ++ CR :: LF :: r)
  = dispatch (ReadProtocol_fuel f) (c :: p ++ [CR; LF]) r.
Proof. intros Hc Hp. cbn [ReadProtocol_fuel]. now rewrite readBytes_line. Qed.

Lemma readFull_payload (a r : bytes) :
  readFull (List.length a + 2) (a ++ CR :: LF :: r) = Some (a ++ [CR; LF], r).
Proof.
  unfold readFull. rewrite length_app. cbn [List.length].
  replace (List.length a + 2 <=? List.length a + S (S (List.length r))) with true
    by (symmetry; apply Nat.leb_le; lia).
  replace (a ++ CR :: LF :: r) with ((a ++ [CR; LF]) ++ r) by now rewrite <- app_assoc.
  assert (Hl : List.length (a ++ [CR; LF]) = List.length a + 2) by now rewrite length_app.
  rewrite <- Hl, firstn_app, firstn_all, Nat.sub_diag, app_nil_r, skipn_app, skipn_all,
    Nat.sub_diag. reflexivity.
Qed.

Lemma strip_terminator (a : bytes) :
  firstn (List.length (a ++ [CR; LF]) - 2) (a ++ [CR; LF]) = a.
Proof.
  rewrite length_app. cbn [List.length].
  replace (List.length a + 2 - 2) with (List.length a) by lia.
  now rewrite firstn_app, firstn_all, Nat.sub_diag, app_nil_r.
Qed.

Lemma dispatch_bulk (rp : bytes -> outcome) (a r : bytes) :
  dispatch rp (BulkSep :: Itob (List.length a) ++ [CR; LF]) (a ++ CR :: LF :: r)
  = Ok (BulkResp (bulk_of a)) r.
Proof.
  unfold dispatch. rewrite body_line, ParseLen_Itob. cbn [is_char].
  cbv zeta. simpl (if ascii_dec _ _ then _ else _). cbn iota.
  destruct (Z.eqb_spec (Z.of_nat (List.length a)) (-1)) as [E|_]; [lia|].
  destruct (Z.ltb_spec (Z.of_nat (List.length a)) (-1)) as [E|_]; [lia|].
  rewrite Nat2Z.id, readFull_payload, strip_terminator. reflexivity.
Qed.

Lemma dispatch_null (rp : bytes -> outcome) (r : bytes) :
  dispatch rp (BulkSep :: bs "-1" ++ [CR; LF]) r = Ok (BulkResp null_bulk) r.
Proof. reflexivity. Qed.

Lemma dispatch_simple (rp : bytes -> outcome) (p r : bytes) :
  dispatch rp (SimpSep :: p ++ [CR; LF]) r = Ok (SimpleResp (base SimpleType p)) r.
Proof. unfold dispatch. now rewrite body_line. Qed.

Lemma dispatch_error (rp : bytes -> outcome) (p r : bytes) :
  dispatch rp (ErrSep :: p ++ [CR; LF]) r = Ok (ErrorResp (base ErrorType p)) r.
Proof. unfold dispatch. now rewrite body_line. Qed.

Lemma dispatch_int (rp : bytes -> outcome) (p r : bytes) :
  dispatch rp (IntSep :: p ++ [CR; LF]) r = Ok (IntResp (base IntType p)) r.
Proof. unfold dispatch. now rewrite body_line. Qed.

Lemma dispatch_array (rp : bytes -> outcome) (p r : bytes) (n : nat) :
  ParseLen p = Some (Z.of_nat n) ->
  dispatch rp (ArrSep :: p ++ [CR; LF]) r
  = match read_children rp n r with
    | LDone l r' => Ok (ArrayResp ArrayType l) r'
    | LStop o => o
    end.
Proof. intros Hp. unfold dispatch. rewrite body_line, Hp. cbn. now rewrite Nat2Z.id. Qed.

Lemma bulk_invariant_cases (b : BulkRec) :
  bulk_invariant b -> b = null_bulk \/ exists a, b = bulk_of a.
Proof.
  destruct b as [[t args] e]; unfold bulk_invariant; cbn.
  intros [-> [[-> ->]|[-> [a ->]]]]; [left; reflexivity|right; now exists a].
Qed.

Lemma bulk_roundtrip (b : BulkRec) :
  bulk_invariant b ->
  exists e, BulkEncode b = EncOk e /\ e <> [] /\
    forall f r, ReadProtocol_fuel (S f) (e ++ r) = Ok (BulkResp b) r.
Proof.
  intros H. destruct (bulk_invariant_cases b H) as [->|[a ->]].
  - eexists. split; [reflexivity|]. split; [discriminate|]. intros f r. reflexivity.
  - eexists. split; [reflexivity|]. split; [discriminate|]. intros f r.
    replace (([BulkSep] ++ Itob (List.length a) ++ CRLF ++ a ++ CRLF) ++ r)
      with (BulkSep :: Itob (List.length a) ++ CR :: LF :: (a ++ CR :: LF :: r))
      by (unfold CRLF; cbn [app]; repeat (rewrite <- app_assoc; cbn [app]); reflexivity).
    rewrite ReadProtocol_line by (discriminate || apply Itob_no_LF).
    apply dispatch_bulk.
Qed.

Lemma encode_children_app (acc : bytes) (l : list BulkRec) :
  Forall bulk_invariant l ->
  exists e, encode_children acc l = EncOk (acc ++ e) /\
    forall f r, read_children (ReadProtocol_fuel (S f)) (List.length l) (e ++ r)
                = LDone l r.
Proof.
  revert acc; induction l as [|b l IH]; intros acc Hl.
  - exists []. split; [now rewrite app_nil_r|]. reflexivity.
  - inversion Hl as [|? ? Hb Hl']; subst.
    destruct (bulk_roundtrip b Hb) as [eb [Heb [_ Hdec]]].
    destruct (IH (acc ++ eb) Hl') as [el [Hel Hrd]].
    exists (eb ++ el). split.
    + cbn. rewrite Heb, Hel. now rewrite app_assoc.
    + intros f r. cbn [List.length read_children].
      rewrite <- app_assoc, Hdec, Hrd. reflexivity.
Qed.

Lemma line_roundtrip (sep : ascii) (t who : string) (ctor : BaseResp -> Resp)
    (b : BaseResp) :
  sep <> LF ->
  (forall rp p r, dispatch rp (sep :: p ++ [CR; LF]) r = Ok (ctor (base t p)) r) ->
  line_invariant t b ->
  exists e, encode_line sep t who b = EncOk e /\ e <> [] /\
    forall f r, ReadProtocol_fuel (S f) (e ++ r) = Ok (ctor b) r.
Proof.
  intros Hsep Hd [Ht [p [Ha Hp]]].
  destruct b as [t' args]; cbn in Ht, Ha; subst t' args.
  exists ([sep] ++ p ++ CRLF). split; [|split; [discriminate|]].
  - unfold encode_line. cbn [Rtype Args]. now rewrite String.eqb_refl.
  - intros f r.
    replace (([sep] ++ p ++ CRLF) ++ r) with (sep :: p ++ CR :: LF :: r)
      by (unfold CRLF; cbn [app]; repeat (rewrite <- app_assoc; cbn [app]); reflexivity).
    rewrite ReadProtocol_line by assumption. apply Hd.
Qed.

Lemma value_roundtrip (v : Resp) :
  constructible v ->
  exists e, Encode v = EncOk e /\ e <> [] /\
    forall f r, ReadProtocol_fuel (S (S f)) (e ++ r) = Ok v r.
Proof.
  destruct v as [b|b|b|b|t l]; cbn [constructible Encode]; intros Hv.
  - destruct (line_roundtrip SimpSep SimpleType "SimpleResp" SimpleResp b)
      as [e [He [Hne Hd]]]; [discriminate|apply dispatch_simple|exact Hv|].
    exists e. auto.
  - destruct (line_roundtrip ErrSep ErrorType "ErrorResp" ErrorResp b)
      as [e [He [Hne Hd]]]; [discriminate|apply dispatch_error|exact Hv|].
    exists e. auto.
  - destruct (line_roundtrip IntSep IntType "IntResp" IntResp b)
      as [e [He [Hne Hd]]]; [discriminate|apply dispatch_int|exact Hv|].
    exists e. auto.
  - destruct (bulk_roundtrip b Hv) as [e [He [Hne Hd]]]. exists e. auto.
  - destruct Hv as [-> Hl].
    destruct (encode_children_app ([ArrSep] ++ Itob (List.length l) ++ CRLF) l Hl)
      as [e [He Hd]].
    exists (([ArrSep] ++ Itob (List.length l) ++ CRLF) ++ e).
    split; [|split; [discriminate|]].
    + unfold ArrayEncode. cbn [negb String.eqb]. exact He.
    + intros f r.
      replace ((([ArrSep] ++ Itob (List.length l) ++ CRLF) ++ e) ++ r)
        with (ArrSep :: Itob (List.length l) ++ CR :: LF :: (e ++ r))
        by (unfold CRLF; cbn [app]; repeat (rewrite <- app_assoc; cbn [app]); reflexivity).
      rewrite ReadProtocol_line by (discriminate || apply Itob_no_LF).
      rewrite (dispatch_array _ _ _ (List.length l)) by apply ParseLen_Itob.
      now rewrite Hd.
Qed.

Lemma read_value_fuel (e r : bytes) :
  e <> [] -> exists f, read_value (e ++ r) = ReadProtocol_fuel (S (S f)) (e ++ r).
Proof.
  intros He. destruct e as [|c e]; [congruence|].
  exists (List.length (e ++ r)). reflexivity.
Qed.

(** ** The recursion budget

    Every call consumes its header line, so a budget larger than the length
    of the stream is never exhausted and any two such budgets agree. *)

Lemma readBytes_split (s res r : bytes) :
  readBytes s = Some (res, r) -> s = res ++ r /\ res <> [].
Proof.
  revert res r; induction s as [|c s IH]; intros res r H; cbn in H; [discriminate|].
  destruct (ascii_dec c LF).
  - inversion H; subst. split; [reflexivity|discriminate].
  - destruct (readBytes s) as [[l r']|] eqn:E; [|discriminate].
    inversion H; subst. destruct (IH l r eq_refl) as [-> _].
    split; [reflexivity|discriminate].
Qed.

Lemma readBytes_shorter (s res r : bytes) :
  readBytes s = Some (res, r) -> List.length r < List.length s.
Proof.
  intros H. destruct (readBytes_split s res r H) as [-> Hne].
  rewrite length_app. destruct res; [congruence|]. cbn. lia.
Qed.

Lemma read_children_consumes (rp : bytes -> outcome) :
  consumes rp ->
  forall k s l r, read_children rp k s = LDone l r -> List.length r <= List.length s.
Proof.
  intros Hrp k; induction k as [|k IH]; intros s l r H; cbn in H.
  - inversion H; subst. lia.
  - destruct (rp s) as [v s'| | | |] eqn:E; try discriminate.
    destruct v; try discriminate.
    destruct (read_children rp k s') as [l' r'|] eqn:E'; [|discriminate].
    inversion H; subst.
    specialize (Hrp _ _ _ E). specialize (IH _ _ _ E'). lia.
Qed.

Lemma read_children_stop (rp : bytes -> outcome) (k : nat) (s : bytes)
    (v : Resp) (r : bytes) :
  read_children rp k s <> LStop (Ok v r).
Proof.
  revert s; induction k as [|k IH]; intros s E; cbn in E; [discriminate|].
  destruct (rp s) as [[] s'| | | |]; try (inversion E; discriminate).
  destruct (read_children rp k s') eqn:Ek; [discriminate|].
  inversion E; subst. eapply IH; eauto.
Qed.

Ltac split_dispatch :=
  repeat match goal with
  | |- context [if ?b then _ else _] => destruct b
  | |- context [match go_slice ?a ?b ?c with _ => _ end] => destruct (go_slice a b c)
  | |- context [match ParseLen ?p with _ => _ end] => destruct (ParseLen p)
  end.

Lemma dispatch_consumes (rp : bytes -> outcome) (res r : bytes) :
  consumes rp ->
  forall v r', dispatch rp res r = Ok v r' -> List.length r' <= List.length r.
Proof.
  intros Hrp v r' H. unfold dispatch in H.
  destruct res as [|c res']; [discriminate|]. cbv zeta in H.
  revert H. split_dispatch; intros H; try discriminate;
    try (inversion H; subst; lia).
  - destruct (readFull _ r) as [[buf r'']|] eqn:E; [|discriminate].
    inversion H; subst. unfold readFull in E.
    destruct (_ <=? _); [|discriminate]. inversion E; subst.
    rewrite length_skipn. lia.
  - destruct (read_children rp _ r) as [l r''|] eqn:E.
    + inversion H; subst. eapply read_children_consumes; eauto.
    + subst. exfalso. eapply read_children_stop; eauto.
Qed.

Lemma ReadProtocol_consumes (n : nat) : consumes (ReadProtocol_fuel n).
Proof.
  induction n as [|n IH]; intros s v r H; cbn in H; [discriminate|].
  destruct (readBytes s) as [[res r0]|] eqn:E; [|discriminate].
  apply readBytes_shorter in E.
  apply (dispatch_consumes _ res r0 IH) in H. lia.
Qed.

Lemma read_children_ext (rp1 rp2 : bytes -> outcome) (k : nat) (s : bytes) :
  consumes rp1 ->
  (forall t, List.length t <= List.length s -> rp1 t = rp2 t) ->
  read_children rp1 k s = read_children rp2 k s.
Proof.
  intros Hc; revert s; induction k as [|k IH]; intros s Heq; cbn; [reflexivity|].
  rewrite <- (Heq s) by lia.
  destruct (rp1 s) as [[] s'| | | |] eqn:E; try reflexivity.
  apply Hc in E. rewrite IH; [reflexivity|].
  intros t Ht. apply Heq. lia.
Qed.

Lemma dispatch_ext (rp1 rp2 : bytes -> outcome) (res r : bytes) :
  consumes rp1 ->
  (forall t, List.length t <= List.length r -> rp1 t = rp2 t) ->
  dispatch rp1 res r = dispatch rp2 res r.
Proof.
  intros Hc Heq. unfold dispatch.
  destruct res as [|c res']; [reflexivity|]. cbv zeta.
  split_dispatch; try reflexivity.
  now rewrite (read_children_ext rp1 rp2).
Qed.

Lemma ReadProtocol_stable (n m : nat) (s : bytes) :
  List.length s < n -> List.length s < m ->
  ReadProtocol_fuel n s = ReadProtocol_fuel m s.
Proof.
  revert m s; induction n as [|n IH]; intros m s Hn Hm; [lia|].
  destruct m as [|m]; [lia|]. cbn.
  destruct (readBytes s) as [[res r]|] eqn:E; [|reflexivity].
  apply readBytes_shorter in E.
  apply dispatch_ext; [apply ReadProtocol_consumes|].
  intros t Ht. apply IH; lia.
Qed.

(** [read_value] is [ReadProtocol_fuel] at any budget above the length. *)
Lemma ReadProtocol_fuel_enough (n : nat) (s : bytes) :
  List.length s < n -> ReadProtocol_fuel n s = read_value s.
Proof. intros H. apply ReadProtocol_stable; [exact H|lia]. Qed.

Lemma read_value_consumes : consumes read_value.
Proof. intros t v t'. apply ReadProtocol_consumes. Qed.

(** ** Frames are encodings of constructible values *)

Lemma bulk_frame_encoding (fr : bytes) :
  bulk_frame fr -> exists b, bulk_invariant b /\ BulkEncode b = EncOk fr.
Proof.
  intros [|a].
  - exists null_bulk. split; [|reflexivity].
    split; [reflexivity|left; split; reflexivity].
  - exists (bulk_of a). split; [|reflexivity].
    split; [reflexivity|right; split; [reflexivity|now exists a]].
Qed.

Lemma bulk_frames_encoding (frs : list bytes) :
  Forall bulk_frame frs ->
  exists l, Forall bulk_invariant l /\ List.length l = List.length frs /\
    forall acc, encode_children acc l = EncOk (acc ++ List.concat frs).
Proof.
  induction 1 as [|fr frs Hfr _ [l [Hl [Hlen He]]]].
  - exists []. repeat split; [constructor|]. intros acc. cbn. now rewrite app_nil_r.
  - destruct (bulk_frame_encoding fr Hfr) as [b [Hb Heb]].
    exists (b :: l). split; [now constructor|]. split; [cbn; now f_equal|].
    intros acc. cbn. rewrite Heb, He. now rewrite app_assoc.
Qed.

Lemma wf_frame_encoding (fr : bytes) :
  wf_frame fr -> exists v, constructible v /\ Encode v = EncOk fr.
Proof.
  intros [p Hp|p Hp|p Hp|fr' Hb|frs Hfrs].
  - exists (SimpleResp (base SimpleType p)). split; [|reflexivity].
    split; [reflexivity|now exists p].
  - exists (ErrorResp (base ErrorType p)). split; [|reflexivity].
    split; [reflexivity|now exists p].
  - exists (IntResp (base IntType p)). split; [|reflexivity].
    split; [reflexivity|now exists p].
  - destruct (bulk_frame_encoding fr' Hb) as [b [Hinv He]].
    exists (BulkResp b). now split.
  - destruct (bulk_frames_encoding frs Hfrs) as [l [Hl [Hlen He]]].
    exists (ArrayResp ArrayType l). split; [now split|].
    unfold Encode, ArrayEncode. rewrite String.eqb_refl. cbn [negb].
    rewrite Hlen, He.
    now repeat rewrite <- app_assoc.
Qed.

(** ** The claims *)

(** C1: a bulk header of length L followed by fewer than L+2 bytes.  The
    code returns a nil value together with a nil error: the short read of
    [io.ReadFull] is not reported ([return nil, err] returns the nil error
    of [ParseLen], not the read error [e]). *)
Theorem C1_short_read_returns_nil_nil :
  read_value (bs "$10" ++ CRLF ++ bs "abc") = RetNilNil.
Proof. vm_compute. reflexivity. Qed.

(** C2: malformed input does not always end in a value or an error: a
    header line "+" LF (terminator without carriage return) makes the slice
    [res[1:len(res)-2]] panic, and a short bulk read returns neither a value
    nor an error. *)
Theorem C2_malformed_line_panics :
  read_value (bs "+" ++ [LF]) = Panic
  /\ read_value (bs "$10" ++ CRLF ++ bs "abc") = RetNilNil.
Proof. split; vm_compute; reflexivity. Qed.

(** C3: decoding any well-formed frame of the five kinds (followed by any
    further bytes) returns a value, leaves exactly the further bytes, and
    writing the value back produces the frame. *)
Theorem C3_frame_roundtrip (fr rest : bytes) :
  wf_frame fr ->
  exists v, read_value (fr ++ rest) = Ok v rest /\ WriteProtocol [] v = WOk fr.
Proof.
  intros Hfr. destruct (wf_frame_encoding fr Hfr) as [v [Hv Henc]].
  destruct (value_roundtrip v Hv) as [e [He [Hne Hdec]]].
  rewrite Henc in He. inversion He; subst e.
  exists v. split.
  - destruct (read_value_fuel fr rest Hne) as [f ->]. apply Hdec.
  - unfold WriteProtocol. now rewrite Henc.
Qed.

(** C4: writing a constructible value and decoding the bytes written
    (followed by any further bytes) yields the value back and leaves the
    further bytes. *)
Theorem C4_value_roundtrip (v : Resp) (rest : bytes) :
  constructible v ->
  exists e, WriteProtocol [] v = WOk e /\ read_value (e ++ rest) = Ok v rest.
Proof.
  intros Hv. destruct (value_roundtrip v Hv) as [e [He [Hne Hdec]]].
  exists e. split.
  - unfold WriteProtocol. now rewrite He.
  - destruct (read_value_fuel e rest Hne) as [f ->]. apply Hdec.
Qed.

(** C5: "$-1" CR LF decodes to the null bulk value and consumes nothing
    more; the null bulk value encodes to exactly those five bytes; the
    non-null empty bulk value encodes to "$0" CR LF CR LF. *)
Theorem C5_null_vs_empty_bulk :
  (forall rest, read_value (bs "$-1" ++ CRLF ++ rest) = Ok (BulkResp null_bulk) rest)
  /\ Encode (BulkResp null_bulk) = EncOk (bs "$-1" ++ CRLF)
  /\ List.length (bs "$-1" ++ CRLF) = 5
  /\ Encode (BulkResp (bulk_of [])) = EncOk ([BulkSep] ++ bs "0" ++ CRLF ++ [] ++ CRLF)
  /\ Encode (BulkResp (bulk_of [])) <> Encode (BulkResp null_bulk).
Proof.
  split; [intros rest; reflexivity|].
  split; [reflexivity|]. split; [reflexivity|]. split; [reflexivity|].
  cbn. discriminate.
Qed.

(** ** Lemmas for the inline commands, arrays and the tag checks *)

Lemma read_value_line (c : ascii) (p rest : bytes) :
  c <> LF -> ~ In LF p ->
  read_value (c :: p ++ LF :: rest)
  = dispatch (ReadProtocol_fuel (S (List.length (p ++ LF :: rest))))
      (c :: p ++ [LF]) rest.
Proof.
  intros Hc Hp. unfold read_value.
  change (c :: p ++ LF :: rest) with ((c :: p) ++ LF :: rest) at 2.
  cbn [List.length]. change (ReadProtocol_fuel (S (S (List.length (p ++ LF :: rest)))) ((c :: p) ++ LF :: rest))
    with (match readBytes ((c :: p) ++ LF :: rest) with
          | None => Fail EIO
          | Some (res, r) => dispatch (ReadProtocol_fuel (S (List.length (p ++ LF :: rest)))) res r
          end).
  rewrite readBytes_app; [reflexivity|].
  intros [H|H]; [congruence|contradiction].
Qed.

Lemma dispatch_quit (rp : bytes -> outcome) (c : ascii) (res r : bytes) :
  c = "Q"%char \/ c = "q"%char ->
  dispatch rp (c :: res) r
  = if negb (List.length (c :: res) =? 6) then Fail EInline
    else Ok (ArrayResp ArrayType [bulk_of QUIT]) r.
Proof. intros [-> | ->]; reflexivity. Qed.

Lemma dispatch_ping (rp : bytes -> outcome) (c : ascii) (res r : bytes) :
  c = "P"%char \/ c = "p"%char ->
  dispatch rp (c :: res) r
  = if negb (List.length (c :: res) =? 6) then Fail EInline
    else Ok (ArrayResp ArrayType [bulk_of PING]) r.
Proof. intros [-> | ->]; reflexivity. Qed.

Lemma read_value_array (p s : bytes) (N : nat) :
  ParseLen p = Some (Z.of_nat N) -> ~ In LF p ->
  read_value (ArrSep :: p ++ CR :: LF :: s)
  = match read_children read_value N s with
    | LDone l r => Ok (ArrayResp ArrayType l) r
    | LStop o => o
    end.
Proof.
  intros Hp HLF. unfold read_value at 1. cbn [List.length].
  rewrite ReadProtocol_line by (discriminate || exact HLF).
  rewrite (dispatch_array _ _ _ N Hp).
  rewrite (read_children_ext _ read_value); [reflexivity|apply ReadProtocol_consumes|].
  intros t Ht. apply ReadProtocol_fuel_enough.
  rewrite length_app. cbn [List.length]. lia.
Qed.

Lemma chain_done (s : bytes) (l : list BulkRec) (r : bytes) :
  decodes_bulks s l r -> read_children read_value (List.length l) s = LDone l r.
Proof.
  induction 1 as [s|s r r' b l Hs _ IH]; [reflexivity|].
  cbn [List.length read_children]. now rewrite Hs, IH.
Qed.

Lemma chain_framing (s : bytes) (l : list BulkRec) (r : bytes) (v : Resp)
    (r' : bytes) (N : nat) :
  decodes_bulks s l r -> List.length l < N -> read_value r = Ok v r' ->
  is_bulk v = false -> read_children read_value N s = LStop (Fail EFraming).
Proof.
  intros Hc; revert N; induction Hc as [s|s r0 r1 b l Hs _ IH]; intros N HN Hv Hb;
    (destruct N as [|N]; [cbn in HN; lia|]); cbn [read_children].
  - rewrite Hv. destruct v; try reflexivity. discriminate.
  - rewrite Hs, (IH N); [reflexivity|cbn in HN; lia|exact Hv|exact Hb].
Qed.

Lemma arg0_not_assert (args : list bytes) (k : bytes -> enc_outcome) (msg : string) :
  (forall a, exists e, k a = EncOk e) -> arg0 args k <> EncAssert msg.
Proof.
  intros Hk. destruct args as [|a args]; cbn; [discriminate|].
  destruct (Hk a) as [e ->]. discriminate.
Qed.

Lemma BulkEncode_tag_ok (b : BulkRec) (msg : string) :
  Rtype (bbase b) = BulkType -> BulkEncode b <> EncAssert msg.
Proof.
  intros Ht. unfold BulkEncode. rewrite Ht, String.eqb_refl. cbn [negb].
  destruct (Empty b); [discriminate|].
  apply arg0_not_assert. intros a. eexists. reflexivity.
Qed.

Lemma BulkEncode_ok_tag (b : BulkRec) (e : bytes) :
  BulkEncode b = EncOk e -> Rtype (bbase b) = BulkType.
Proof.
  unfold BulkEncode. destruct (String.eqb_spec (Rtype (bbase b)) BulkType);
    [auto|discriminate].
Qed.

Lemma encode_children_tags (acc : bytes) (l : list BulkRec) :
  (forall e, encode_children acc l = EncOk e ->
     Forall (fun b => Rtype (bbase b) = BulkType) l)
  /\ (Forall (fun b => Rtype (bbase b) = BulkType) l ->
      forall msg, encode_children acc l <> EncAssert msg).
Proof.
  revert acc; induction l as [|b l IH]; intros acc; cbn; split.
  - constructor.
  - discriminate.
  - intros e H. destruct (BulkEncode b) as [eb| |] eqn:E; try discriminate.
    constructor; [eapply BulkEncode_ok_tag; eauto|].
    eapply (proj1 (IH (acc ++ eb))); eauto.
  - intros Hf msg. inversion Hf as [|? ? Hb Hl]; subst.
    destruct (BulkEncode b) as [eb|m|] eqn:E.
    + now apply (proj2 (IH (acc ++ eb))).
    + exfalso. now apply (BulkEncode_tag_ok b m).
    + discriminate.
Qed.

Lemma encode_line_tag (sep : ascii) (t who : string) (b : BaseResp) :
  (Rtype b <> t -> exists msg, encode_line sep t who b = EncAssert msg)
  /\ (forall e, encode_line sep t who b = EncOk e -> Rtype b = t)
  /\ (Rtype b = t -> forall msg, encode_line sep t who b <> EncAssert msg).
Proof.
  unfold encode_line. destruct (String.eqb_spec (Rtype b) t) as [E|E]; cbn [negb].
  - split; [contradiction|]. split; [auto|]. intros _ msg.
    apply arg0_not_assert. intros a. eexists. reflexivity.
  - split; [eexists; reflexivity|]. split; [discriminate|contradiction].
Qed.

(** C6: "PING" CR LF and "ping" CR LF decode to an array holding one bulk
    "PING"; "QUIT" CR LF to an array holding one bulk "QUIT"; a line (up to
    and including its line feed) starting with P, p, Q or q whose length is
    not 6 is rejected with the malformed inline command error. *)
Theorem C6_inline_commands :
  (forall rest, read_value (bs "PING" ++ CRLF ++ rest)
                = Ok (ArrayResp ArrayType [bulk_of PING]) rest)
  /\ (forall rest, read_value (bs "ping" ++ CRLF ++ rest)
                   = Ok (ArrayResp ArrayType [bulk_of PING]) rest)
  /\ (forall rest, read_value (bs "QUIT" ++ CRLF ++ rest)
                   = Ok (ArrayResp ArrayType [bulk_of QUIT]) rest)
  /\ (forall (c : ascii) (p rest : bytes),
        In c ["P"; "p"; "Q"; "q"]%char -> ~ In LF p ->
        List.length (c :: p ++ [LF]) <> 6 ->
        read_value (c :: p ++ LF :: rest) = Fail EInline).
Proof.
  split; [intros rest; reflexivity|].
  split; [intros rest; reflexivity|].
  split; [intros rest; reflexivity|].
  intros c p rest Hc Hp Hlen.
  assert (HcLF : c <> LF) by (intros ->; cbn in Hc; intuition discriminate).
  rewrite read_value_line by assumption.
  apply Nat.eqb_neq in Hlen.
  destruct Hc as [<-|[<-|[<-|[<-|[]]]]];
    [rewrite dispatch_ping by auto|rewrite dispatch_ping by auto
    |rewrite dispatch_quit by auto|rewrite dispatch_quit by auto];
    rewrite Hlen; reflexivity.
Qed.

(** C7: after an array header of count N, the decoder decodes the children
    one after the other; N bulk children give the array of them, in order;
    a child that decodes to a non-bulk value before N bulk children were
    read makes the whole decode fail with the framing error; N = 0 gives
    the empty array. *)
Theorem C7_array_children (p : bytes) (N : nat) :
  ParseLen p = Some (Z.of_nat N) -> ~ In LF p ->
  (forall s l r, decodes_bulks s l r -> List.length l = N ->
     read_value (ArrSep :: p ++ CR :: LF :: s) = Ok (ArrayResp ArrayType l) r)
  /\ (forall s l r v r', decodes_bulks s l r -> List.length l < N ->
        read_value r = Ok v r' -> is_bulk v = false ->
        read_value (ArrSep :: p ++ CR :: LF :: s) = Fail EFraming)
  /\ (N = 0 -> forall s,
        read_value (ArrSep :: p ++ CR :: LF :: s) = Ok (ArrayResp ArrayType []) s).
Proof.
  intros Hp HLF. split; [|split].
  - intros s l r Hc Hl. rewrite (read_value_array p s N Hp HLF).
    subst N. now rewrite (chain_done s l r Hc).
  - intros s l r v r' Hc Hl Hv Hb. rewrite (read_value_array p s N Hp HLF).
    now rewrite (chain_framing s l r v r' N).
  - intros -> s. now rewrite (read_value_array p s 0 Hp HLF).
Qed.

(** C8: the argument count of an array is its number of children minus
    one; every other kind reports zero. *)
Theorem C8_Length :
  (forall t l, Length (ArrayResp t l) = (Z.of_nat (List.length l) - 1)%Z)
  /\ (forall b, Length (SimpleResp b) = 0%Z /\ Length (ErrorResp b) = 0%Z
                /\ Length (IntResp b) = 0%Z)
  /\ (forall b, Length (BulkResp b) = 0%Z).
Proof. repeat split. Qed.

(** C9: [Encode] on a value whose kind tag does not match its concrete type
    ends in the type-check panic; a value whose tags (its own and, for an
    array, its children's) do not all match is never encoded normally; when
    they all match, the type-check panic is never raised. *)
Theorem C9_encode_tag_check :
  (forall v, ~ own_tag_ok v -> exists msg, Encode v = EncAssert msg)
  /\ (forall v e, Encode v = EncOk e -> tags_ok v)
  /\ (forall v, tags_ok v -> forall msg, Encode v <> EncAssert msg).
Proof.
  split; [|split].
  - intros [b|b|b|b|t l]; cbn [own_tag_ok Encode]; intros Hn.
    + now apply encode_line_tag.
    + now apply encode_line_tag.
    + now apply encode_line_tag.
    + unfold BulkEncode. destruct (String.eqb_spec (Rtype (bbase b)) BulkType);
        [contradiction|]. eexists. reflexivity.
    + unfold ArrayEncode. destruct (String.eqb_spec t ArrayType);
        [contradiction|]. eexists. reflexivity.
  - intros [b|b|b|b|t l] e; cbn [Encode]; intros He; unfold tags_ok; cbn [own_tag_ok].
    + split; [eapply encode_line_tag; eauto|exact I].
    + split; [eapply encode_line_tag; eauto|exact I].
    + split; [eapply encode_line_tag; eauto|exact I].
    + split; [eapply BulkEncode_ok_tag; eauto|exact I].
    + unfold ArrayEncode in He.
      destruct (String.eqb_spec t ArrayType) as [Et|]; cbn [negb] in He;
        [|discriminate].
      split; [exact Et|]. eapply (proj1 (encode_children_tags _ l)); eauto.
  - intros [b|b|b|b|t l] [Hown Hch]; cbn [own_tag_ok] in Hown; cbn [Encode]; intros msg.
    + now apply encode_line_tag.
    + now apply encode_line_tag.
    + now apply encode_line_tag.
    + now apply BulkEncode_tag_ok.
    + unfold ArrayEncode. subst t. rewrite String.eqb_refl. cbn [negb].
      now apply (proj2 (encode_children_tags _ l)).
Qed.

(** C10: a six-byte line starting with P or p decodes to the PING array
    whatever its other bytes are, and one starting with Q or q to the QUIT
    array: only the first byte and the length of the line are examined. *)
Theorem C10_inline_first_byte_only (c : ascii) (p rest : bytes) :
  ~ In LF p -> List.length (c :: p ++ [LF]) = 6 ->
  ((c = "P"%char \/ c = "p"%char) ->
     read_value (c :: p ++ LF :: rest) = Ok (ArrayResp ArrayType [bulk_of PING]) rest)
  /\ ((c = "Q"%char \/ c = "q"%char) ->
     read_value (c :: p ++ LF :: rest) = Ok (ArrayResp ArrayType [bulk_of QUIT]) rest).
Proof.
  intros Hp Hlen. apply Nat.eqb_eq in Hlen. split; intros Hc;
    (rewrite read_value_line; [|destruct Hc as [->| ->]; discriminate|exact Hp]).
  - rewrite dispatch_ping by exact Hc. now rewrite Hlen.
  - rewrite dispatch_quit by exact Hc. now rewrite Hlen.
Qed.

(** ** Witnesses at concrete inputs *)

(** The spec's example: "*2" CR LF "$3" CR LF "foo" CR LF "$3" CR LF "bar"
    CR LF decodes to the array of the bulk values "foo" and "bar". *)
Example foo_bar_decodes :
  read_value (bs "*2" ++ CRLF ++ bs "$3" ++ CRLF ++ bs "foo" ++ CRLF
              ++ bs "$3" ++ CRLF ++ bs "bar" ++ CRLF)
  = Ok (ArrayResp ArrayType [bulk_of (bs "foo"); bulk_of (bs "bar")]) [].
Proof. reflexivity. Qed.

Lemma C3_witness :
  exists v,
    read_value ((bs "*2" ++ CRLF ++ bs "$3" ++ CRLF ++ bs "foo" ++ CRLF
                 ++ bs "$3" ++ CRLF ++ bs "bar" ++ CRLF) ++ [])
    = Ok v []
    /\ WriteProtocol [] v
       = WOk (bs "*2" ++ CRLF ++ bs "$3" ++ CRLF ++ bs "foo" ++ CRLF
              ++ bs "$3" ++ CRLF ++ bs "bar" ++ CRLF).
Proof.
  apply C3_frame_roundtrip.
  change (bs "*2" ++ CRLF ++ bs "$3" ++ CRLF ++ bs "foo" ++ CRLF
          ++ bs "$3" ++ CRLF ++ bs "bar" ++ CRLF)
    with ([ArrSep] ++ Itob (List.length
            [[BulkSep] ++ Itob (List.length (bs "foo")) ++ CRLF ++ bs "foo" ++ CRLF;
             [BulkSep] ++ Itob (List.length (bs "bar")) ++ CRLF ++ bs "bar" ++ CRLF])
          ++ CRLF ++ List.concat
            [[BulkSep] ++ Itob (List.length (bs "foo")) ++ CRLF ++ bs "foo" ++ CRLF;
             [BulkSep] ++ Itob (List.length (bs "bar")) ++ CRLF ++ bs "bar" ++ CRLF]).
  apply wf_array. constructor; [apply bf_data|]. constructor; [apply bf_data|].
  constructor.
Defined.

Lemma C4_witness :
  exists e,
    WriteProtocol [] (ArrayResp ArrayType [bulk_of (bs "a" ++ CRLF ++ bs "b"); null_bulk])
    = WOk e
    /\ read_value (e ++ [])
       = Ok (ArrayResp ArrayType [bulk_of (bs "a" ++ CRLF ++ bs "b"); null_bulk]) [].
Proof.
  apply C4_value_roundtrip. split; [reflexivity|].
  constructor; [|constructor; [|constructor]].
  - split; [reflexivity|right; split; [reflexivity|eexists; reflexivity]].
  - split; [reflexivity|left; split; reflexivity].
Defined.

Lemma C6_witness :
  read_value ("P"%char :: (bs "INGS" ++ [CR]) ++ LF :: []) = Fail EInline.
Proof.
  destruct C6_inline_commands as [_ [_ [_ H]]].
  apply H.
  - cbn. auto.
  - cbn. intuition discriminate.
  - cbn. discriminate.
Defined.

Lemma C7_witness :
  read_value (ArrSep :: bs "1" ++ CR :: LF :: bs "*0" ++ CRLF) = Fail EFraming.
Proof.
  destruct (C7_array_children (bs "1") 1) as [_ [H _]].
  - reflexivity.
  - cbn. intuition discriminate.
  - apply (H (bs "*0" ++ CRLF) [] (bs "*0" ++ CRLF) (ArrayResp ArrayType []) []).
    + constructor.
    + cbn. lia.
    + reflexivity.
    + reflexivity.
Defined.

Lemma C9_witness :
  exists msg, Encode (SimpleResp (base IntType (bs "1"))) = EncAssert msg.
Proof.
  destruct C9_encode_tag_check as [H _].
  apply H. cbn. discriminate.
Defined.

Lemma C10_witness :
  read_value ("P"%char :: (bs "ONG" ++ [CR]) ++ LF :: [])
  = Ok (ArrayResp ArrayType [bulk_of PING]) [].
Proof.
  apply (C10_inline_first_byte_only "P"%char (bs "ONG" ++ [CR]) []).
  - cbn. intuition discriminate.
  - reflexivity.
  - left. reflexivity.
Defined.

(** ** Further properties of the decoder and the encoder *)

Lemma readBytes_shape (s res r : bytes) :
  readBytes s = Some (res, r) -> exists l, res = l ++ [LF] /\ ~ In LF l.
Proof.
  revert res r; induction s as [|c s IH]; intros res r H; cbn in H; [discriminate|].
  destruct (ascii_dec c LF) as [->|Hc].
  - inversion H; subst. exists []. split; [reflexivity|intros []].
  - destruct (readBytes s) as [[l0 r0]|] eqn:E; [|discriminate].
    inversion H; subst. destruct (IH l0 r eq_refl) as [l [-> Hl]].
    exists (c :: l). split; [reflexivity|].
    intros [H'|H']; [congruence|contradiction].
Qed.

Lemma In_firstn_in (x : ascii) (k : nat) (l : bytes) : In x (firstn k l) -> In x l.
Proof. intros H. rewrite <- (firstn_skipn k l). apply in_or_app. now left. Qed.

Lemma In_skipn_in (x : ascii) (k : nat) (l : bytes) : In x (skipn k l) -> In x l.
Proof. intros H. rewrite <- (firstn_skipn k l). apply in_or_app. now right. Qed.

Lemma go_slice_some (lo hi : nat) (l p : bytes) :
  go_slice lo hi l = Some p ->
  p = firstn (hi - lo) (skipn lo l) /\ lo <= hi /\ hi <= List.length l.
Proof.
  unfold go_slice. destruct ((lo <=? hi) && (hi <=? List.length l)) eqn:E;
    [|discriminate].
  apply andb_true_iff in E. destruct E as [E1 E2].
  apply Nat.leb_le in E1, E2. intros H. injection H as <-. auto.
Qed.

(** The payload cut out of a line read by [ReadBytes] holds no line feed. *)
Lemma body_no_LF (l p : bytes) :
  ~ In LF l ->
  go_slice 1 (List.length (l ++ [LF]) - 2) (l ++ [LF]) = Some p -> ~ In LF p.
Proof.
  intros Hl H Hin. apply go_slice_some in H. destruct H as [H [Hlo _]].
  rewrite H in Hin. clear H.
  rewrite firstn_skipn_comm in Hin.
  apply In_skipn_in in Hin.
  rewrite length_app in Hin, Hlo. cbn [List.length] in Hin, Hlo.
  rewrite firstn_app in Hin.
  replace (1 + (List.length l + 1 - 2 - 1) - List.length l) with 0 in Hin by lia.
  rewrite app_nil_r in Hin. apply In_firstn_in in Hin. contradiction.
Qed.

Ltac split_dispatch_eqn :=
  repeat match goal with
  | |- context [if ?b then _ else _] => let E := fresh "E" in destruct b eqn:E
  | |- context [match go_slice ?a ?b ?c with _ => _ end] =>
      let E := fresh "Eb" in destruct (go_slice a b c) eqn:E
  | |- context [match ParseLen ?p with _ => _ end] =>
      let E := fresh "Ep" in destruct (ParseLen p) eqn:E
  end.

Lemma read_children_invariant (rp : bytes -> outcome) :
  (forall t v t', rp t = Ok v t' -> constructible v) ->
  forall k s l r, read_children rp k s = LDone l r -> Forall bulk_invariant l.
Proof.
  intros Hrp k; induction k as [|k IH]; intros s l r H; cbn in H.
  - inversion H; subst. constructor.
  - destruct (rp s) as [v s'| | | |] eqn:E; try discriminate.
    destruct v as [| | |br|]; try discriminate.
    destruct (read_children rp k s') as [l' r'|] eqn:E'; [|discriminate].
    inversion H; subst. constructor; [exact (Hrp _ _ _ E)|eapply IH; eauto].
Qed.

Lemma null_bulk_invariant : bulk_invariant null_bulk.
Proof. split; [reflexivity|left; split; reflexivity]. Qed.

Lemma bulk_of_invariant (a : bytes) : bulk_invariant (bulk_of a).
Proof. split; [reflexivity|right; split; [reflexivity|now exists a]]. Qed.

Lemma ReadProtocol_constructible (n : nat) :
  forall s v r, ReadProtocol_fuel n s = Ok v r -> constructible v.
Proof.
  induction n as [|n IH]; intros s v r H; cbn in H; [discriminate|].
  destruct (readBytes s) as [[res r0]|] eqn:Er; [|discriminate].
  destruct (readBytes_shape s res r0 Er) as [l [Hres Hl]].
  unfold dispatch in H. destruct res as [|c t]; [discriminate|].
  cbv zeta in H. revert H. rewrite Hres.
  split_dispatch_eqn; intros H; try discriminate;
    try (inversion H; subst; clear H).
  all: try (split; [reflexivity|]; eexists; split; [reflexivity|];
            subst; eapply body_no_LF; eauto).
  all: try apply null_bulk_invariant.
  all: try (split; [reflexivity|]; constructor; [apply bulk_of_invariant|constructor]).
  - match goal with Hx : match readFull _ _ with _ => _ end = Ok _ _ |- _ => revert Hx end.
    destruct (readFull _ r0) as [[buf r']|]; intros Hx; [|discriminate].
    inversion Hx; subst. apply bulk_of_invariant.
  - match goal with Hx : match read_children _ _ _ with _ => _ end = Ok _ _ |- _ => revert Hx end.
    destruct (read_children _ _ r0) as [l' r'|] eqn:Ec; intros Hx.
    + inversion Hx; subst. split; [reflexivity|].
      eapply read_children_invariant; [exact IH|exact Ec].
    + subst. exfalso. eapply read_children_stop; eauto.
Qed.

Lemma body_line_any (c : ascii) (p : bytes) (x y : ascii) :
  go_slice 1 (List.length (c :: p ++ [x; y]) - 2) (c :: p ++ [x; y]) = Some p.
Proof.
  unfold go_slice.
  assert (Hl : List.length (c :: p ++ [x; y]) = S (List.length p + 2))
    by (cbn [List.length]; now rewrite length_app).
  rewrite Hl.
  replace ((1 <=? S (List.length p + 2) - 2) && (S (List.length p + 2) - 2 <=? S (List.length p + 2)))
    with true by (symmetry; apply andb_true_intro; split; apply Nat.leb_le; lia).
  replace (S (List.length p + 2) - 2 - 1) with (List.length p) by lia.
  cbn [skipn].
  now rewrite firstn_app, firstn_all, Nat.sub_diag, app_nil_r.
Qed.

Lemma readFull_payload_any (a : bytes) (x y : ascii) (r : bytes) :
  readFull (List.length a + 2) (a ++ x :: y :: r) = Some (a ++ [x; y], r).
Proof.
  unfold readFull. rewrite length_app. cbn [List.length].
  replace (List.length a + 2 <=? List.length a + S (S (List.length r))) with true
    by (symmetry; apply Nat.leb_le; lia).
  replace (a ++ x :: y :: r) with ((a ++ [x; y]) ++ r) by now rewrite <- app_assoc.
  assert (Hl : List.length (a ++ [x; y]) = List.length a + 2) by now rewrite length_app.
  rewrite <- Hl, firstn_app, firstn_all, Nat.sub_diag, app_nil_r, skipn_app, skipn_all,
    Nat.sub_diag. reflexivity.
Qed.

Lemma strip_two (a : bytes) (x y : ascii) :
  firstn (List.length (a ++ [x; y]) - 2) (a ++ [x; y]) = a.
Proof.
  rewrite length_app. cbn [List.length].
  replace (List.length a + 2 - 2) with (List.length a) by lia.
  now rewrite firstn_app, firstn_all, Nat.sub_diag, app_nil_r.
Qed.

Lemma readBytes_none (s : bytes) : ~ In LF s -> readBytes s = None.
Proof.
  induction s as [|c s IH]; intros H; [reflexivity|]. cbn.
  destruct (ascii_dec c LF) as [E|_]; [exfalso; apply H; now left|].
  rewrite IH; [reflexivity|]. intros H'. apply H. now right.
Qed.

Lemma read_value_header (c : ascii) (p s : bytes) :
  c <> LF -> ~ In LF p ->
  read_value (c :: p ++ CR :: LF :: s)
  = dispatch (ReadProtocol_fuel (S (List.length (p ++ CR :: LF :: s))))
      (c :: p ++ [CR; LF]) s.
Proof.
  intros Hc Hp. unfold read_value. cbn [List.length].
  now rewrite ReadProtocol_line.
Qed.

Lemma chain_prefix (s : bytes) (l : list BulkRec) (r : bytes) :
  decodes_bulks s l r -> forall N, List.length l <= N ->
  read_children read_value N s
  = match read_children read_value (N - List.length l) r with
    | LDone l' r' => LDone (l ++ l') r'
    | LStop o => LStop o
    end.
Proof.
  induction 1 as [s|s r0 r1 b l Hs _ IH]; intros N HN.
  - cbn [List.length app]. rewrite Nat.sub_0_r.
    now destruct (read_children read_value N s).
  - destruct N as [|N]; [cbn in HN; lia|]. cbn [read_children List.length].
    rewrite Hs, (IH N) by (cbn in HN; lia). cbn [Nat.sub].
    now destruct (read_children read_value (N - List.length l) r1).
Qed.

Lemma dispatch_consumes_suffix (rp : bytes -> outcome) (res r : bytes) :
  (forall t v t', rp t = Ok v t' -> exists pre, t = pre ++ t') ->
  forall v r', dispatch rp res r = Ok v r' -> exists pre, r = pre ++ r'.
Proof.
  intros Hrp v r' H. unfold dispatch in H.
  destruct res as [|c res']; [discriminate|]. cbv zeta in H.
  revert H. split_dispatch; intros H; try discriminate;
    try (inversion H; subst; exists []; reflexivity).
  - destruct (readFull _ r) as [[buf r'']|] eqn:E; [|discriminate].
    inversion H; subst. unfold readFull in E.
    destruct (_ <=? _); [|discriminate]. inversion E; subst.
    exists (firstn (Z.to_nat z + 2) r). symmetry. apply firstn_skipn.
  - destruct (read_children rp _ r) as [l r''|] eqn:E.
    + inversion H; subst. clear H.
      revert r l E; induction (Z.to_nat z) as [|k IHk]; intros r l E; cbn in E.
      * inversion E; subst. exists []. reflexivity.
      * destruct (rp r) as [[] s'| | | |] eqn:Er; try discriminate.
        destruct (read_children rp k s') eqn:Ek; [|discriminate].
        inversion E; subst.
        destruct (Hrp _ _ _ Er) as [pre1 ->]. destruct (IHk s' _ Ek) as [pre2 ->].
        exists (pre1 ++ pre2). now rewrite app_assoc.
    + subst. exfalso. eapply read_children_stop; eauto.
Qed.

Lemma ReadProtocol_suffix (n : nat) :
  forall s v r, ReadProtocol_fuel n s = Ok v r -> exists pre, pre <> [] /\ s = pre ++ r.
Proof.
  induction n as [|n IH]; intros s v r H; cbn in H; [discriminate|].
  destruct (readBytes s) as [[res r0]|] eqn:E; [|discriminate].
  destruct (readBytes_split s res r0 E) as [-> Hne].
  destruct (dispatch_consumes_suffix (ReadProtocol_fuel n) res r0) with (v := v) (r' := r)
    as [pre ->]; [|exact H|].
  - intros t v' t' Ht. destruct (IH t v' t' Ht) as [pre [_ ->]]. now exists pre.
  - exists (res ++ pre). split; [|now rewrite app_assoc].
    destruct res; [congruence|discriminate].
Qed.

Lemma dispatch_type (rp : bytes -> outcome) (c : ascii) (t r : bytes) (v : Resp) (r' : bytes) :
  dispatch rp (c :: t) r = Ok v r' -> Type_ v = sigil_type c.
Proof.
  unfold dispatch. cbv zeta. split_dispatch_eqn; intros H; try discriminate;
    try (inversion H; subst; unfold sigil_type;
         repeat match goal with E : is_char c _ = _ |- _ => rewrite E; clear E end;
         reflexivity).
  - revert H. destruct (readFull _ r) as [[buf r'']|]; intros H; [|discriminate].
    inversion H; subst. unfold sigil_type.
    repeat match goal with E : is_char c _ = _ |- _ => rewrite E; clear E end.
    reflexivity.
  - revert H. destruct (read_children rp _ r) as [l r''|] eqn:Ec; intros H.
    + inversion H; subst. unfold sigil_type.
      repeat match goal with E : is_char c _ = _ |- _ => rewrite E; clear E end.
      reflexivity.
    + subst. exfalso. eapply read_children_stop; eauto.
Qed.

(** ** Further properties of parser.go *)

(** X1: every value [ReadProtocol] returns meets the per-variant
    invariants: one payload without line feed for Simple, Error and
    Integer, a null or one-element bulk, an array of such bulks. *)
Theorem X1_decoded_value_constructible (s : bytes) (v : Resp) (r : bytes) :
  read_value s = Ok v r -> constructible v.
Proof. apply ReadProtocol_constructible. Qed.

(** X2: a decoded value always encodes, and decoding its encoding (followed
    by any bytes) gives the same value back. *)
Theorem X2_decoded_value_reencodes (s : bytes) (v : Resp) (r : bytes) :
  read_value s = Ok v r ->
  exists e, WriteProtocol [] v = WOk e /\
    forall rest, read_value (e ++ rest) = Ok v rest.
Proof.
  intros H. apply ReadProtocol_constructible in H.
  destruct (value_roundtrip v H) as [e [He [Hne Hdec]]].
  exists e. split; [unfold WriteProtocol; now rewrite He|].
  intros rest. destruct (read_value_fuel e rest Hne) as [f ->]. apply Hdec.
Qed.

(** X3: the [Type()] of a decoded value is fixed by the first byte of the
    stream: "simple" for '+', "error" for '-', "int" for ':', "bulk" for
    '$', "array" otherwise (for '*' and the inline commands). *)
Theorem X3_decoded_type_by_first_byte (c : ascii) (s : bytes) (v : Resp) (r : bytes) :
  read_value (c :: s) = Ok v r -> Type_ v = sigil_type c.
Proof.
  unfold read_value. cbn [List.length ReadProtocol_fuel readBytes].
  destruct (ascii_dec c LF).
  - apply dispatch_type.
  - destruct (readBytes s) as [[l r0]|]; [apply dispatch_type|discriminate].
Qed.

(** X4: a stream without a line feed (the empty stream included) gives the
    read error of [ReadBytes]. *)
Theorem X4_no_line_feed_read_error (s : bytes) :
  ~ In LF s -> read_value s = Fail EIO.
Proof. intros H. unfold read_value. cbn. now rewrite readBytes_none. Qed.


(** X6: a two-byte line made of one of the sigils + - : $ * and the line
    feed makes [ReadProtocol] panic (slice [res[1:0]]). *)
Theorem X6_short_header_line_panics (c : ascii) (rest : bytes) :
  In c [SimpSep; ErrSep; IntSep; BulkSep; ArrSep] ->
  read_value (c :: LF :: rest) = Panic.
Proof.
  intros Hc. destruct Hc as [<-|[<-|[<-|[<-|[<-|[]]]]]]; reflexivity.
Qed.

(** X7: for a Simple, Error or Integer line the two bytes before the line
    feed's end are dropped unchecked: the payload is everything between the
    sigil and the last two bytes, whatever the byte before the line feed. *)
Theorem X7_line_terminator_unchecked (p : bytes) (x : ascii) (rest : bytes) :
  ~ In LF p -> x <> LF ->
  read_value (SimpSep :: p ++ x :: LF :: rest) = Ok (SimpleResp (base SimpleType p)) rest
  /\ read_value (ErrSep :: p ++ x :: LF :: rest) = Ok (ErrorResp (base ErrorType p)) rest
  /\ read_value (IntSep :: p ++ x :: LF :: rest) = Ok (IntResp (base IntType p)) rest.
Proof.
  intros Hp Hx.
  assert (Hpx : ~ In LF (p ++ [x])).
  { intros H. apply in_app_or in H. destruct H as [H|[H|[]]]; [contradiction|congruence]. }
  replace (p ++ x :: LF :: rest) with ((p ++ [x]) ++ LF :: rest)
    by now rewrite <- app_assoc.
  split; [|split]; (rewrite read_value_line; [|discriminate|exact Hpx]);
    replace ((p ++ [x]) ++ [LF]) with (p ++ [x; LF]) by (now rewrite <- app_assoc);
    unfold dispatch; now rewrite body_line_any.
Qed.

(** X8: the two bytes after a bulk payload are consumed without being
    checked against CR LF. *)
Theorem X8_bulk_terminator_unchecked (a : bytes) (x y : ascii) (rest : bytes) :
  read_value (BulkSep :: Itob (List.length a) ++ CR :: LF :: a ++ x :: y :: rest)
  = Ok (BulkResp (bulk_of a)) rest.
Proof.
  rewrite read_value_header by (discriminate || apply Itob_no_LF).
  unfold dispatch. rewrite body_line, ParseLen_Itob. cbn [is_char].
  cbv zeta. simpl (if ascii_dec _ _ then _ else _). cbn iota.
  destruct (Z.eqb_spec (Z.of_nat (List.length a)) (-1)) as [E|_]; [lia|].
  destruct (Z.ltb_spec (Z.of_nat (List.length a)) (-1)) as [E|_]; [lia|].
  rewrite Nat2Z.id, readFull_payload_any, strip_two. reflexivity.
Qed.

(** X9: a bulk or array header whose length field [ParseLen] rejects gives
    the parse error. *)
Theorem X9_length_parse_error (p s : bytes) :
  ParseLen p = None -> ~ In LF p ->
  read_value (BulkSep :: p ++ CR :: LF :: s) = Fail EParse
  /\ read_value (ArrSep :: p ++ CR :: LF :: s) = Fail EParse.
Proof.
  intros Hp HLF. split;
    (rewrite read_value_header by (discriminate || exact HLF);
     unfold dispatch; rewrite body_line, Hp; reflexivity).
Qed.

(** X10: an array header with a count of zero or less (the "-1" of a null
    array included) gives the empty array and reads nothing more. *)
Theorem X10_nonpositive_array_count (p s : bytes) (n : Z) :
  ParseLen p = Some n -> (n <= 0)%Z -> ~ In LF p ->
  read_value (ArrSep :: p ++ CR :: LF :: s) = Ok (ArrayResp ArrayType []) s.
Proof.
  intros Hp Hn HLF.
  rewrite read_value_header by (discriminate || exact HLF).
  unfold dispatch. rewrite body_line, Hp. cbv zeta. cbn.
  now replace (Z.to_nat n) with 0 by lia.
Qed.

(** X11: an array whose stream ends after fewer than N bulk children
    gives the read error. *)
Theorem X11_truncated_array_read_error (p s : bytes) (N : nat) (l : list BulkRec) :
  ParseLen p = Some (Z.of_nat N) -> ~ In LF p ->
  decodes_bulks s l [] -> List.length l < N ->
  read_value (ArrSep :: p ++ CR :: LF :: s) = Fail EIO.
Proof.
  intros Hp HLF Hc Hl. rewrite (read_value_array p s N Hp HLF).
  rewrite (chain_prefix s l [] Hc N) by lia.
  destruct (N - List.length l) as [|k] eqn:E; [lia|]. reflexivity.
Qed.

(** X12: an array child whose bulk payload is cut short (the nil value and
    nil error of [ReadProtocol]) fails the type assertion: the array
    decode reports the framing error. *)
Theorem X12_short_bulk_child_framing_error (p s r : bytes) (N : nat) (l : list BulkRec) :
  ParseLen p = Some (Z.of_nat N) -> ~ In LF p ->
  decodes_bulks s l r -> List.length l < N -> read_value r = RetNilNil ->
  read_value (ArrSep :: p ++ CR :: LF :: s) = Fail EFraming.
Proof.
  intros Hp HLF Hc Hl Hr. rewrite (read_value_array p s N Hp HLF).
  rewrite (chain_prefix s l r Hc N) by lia.
  destruct (N - List.length l) as [|k] eqn:E; [lia|]. cbn [read_children].
  now rewrite Hr.
Qed.

(** X13: [Encode] reads only the first argument: Simple, Error, Integer and
    non-null bulk values with further arguments encode as with the first
    alone, and a null bulk value encodes to "$-1" CR LF whatever its
    arguments. *)
Theorem X13_encode_first_argument_only (t : string) (p : bytes) (more args : list bytes) :
  Encode (SimpleResp {| Rtype := t; Args := p :: more |})
    = Encode (SimpleResp {| Rtype := t; Args := [p] |})
  /\ Encode (ErrorResp {| Rtype := t; Args := p :: more |})
    = Encode (ErrorResp {| Rtype := t; Args := [p] |})
  /\ Encode (IntResp {| Rtype := t; Args := p :: more |})
    = Encode (IntResp {| Rtype := t; Args := [p] |})
  /\ Encode (BulkResp {| bbase := {| Rtype := t; Args := p :: more |}; Empty := false |})
    = Encode (BulkResp {| bbase := {| Rtype := t; Args := [p] |}; Empty := false |})
  /\ Encode (BulkResp {| bbase := {| Rtype := BulkType; Args := args |}; Empty := true |})
    = EncOk (bs "$-1" ++ CRLF).
Proof. repeat split. Qed.

(** X14: a Simple, Error, Integer or non-null bulk value with the right
    tag but no argument makes [Encode] panic on [Args[0]], and so does an
    array holding such a bulk value. *)
Theorem X14_encode_missing_argument_panics (l : list BulkRec) :
  Encode (SimpleResp {| Rtype := SimpleType; Args := [] |}) = EncIndexPanic
  /\ Encode (ErrorResp {| Rtype := ErrorType; Args := [] |}) = EncIndexPanic
  /\ Encode (IntResp {| Rtype := IntType; Args := [] |}) = EncIndexPanic
  /\ Encode (BulkResp {| bbase := {| Rtype := BulkType; Args := [] |}; Empty := false |})
     = EncIndexPanic
  /\ Encode (ArrayResp ArrayType
       ({| bbase := {| Rtype := BulkType; Args := [] |}; Empty := false |} :: l))
     = EncIndexPanic.
Proof. repeat split. Qed.

(** X15: the [String()] of an array of non-null bulk values is their
    payloads joined by spaces; a null child and an empty child give the
    same string. *)
Theorem X15_array_string (t : string) (ps : list bytes) (l1 l2 : list BulkRec) :
  String_ (ArrayResp t (map bulk_of ps)) = join [Space] ps
  /\ String_ (ArrayResp t (l1 ++ null_bulk :: l2))
     = String_ (ArrayResp t (l1 ++ bulk_of [] :: l2)).
Proof.
  split; cbn [String_]; unfold ArrayString.
  - rewrite map_map, (map_ext _ (fun x => x)) by reflexivity.
    now rewrite map_id.
  - now rewrite !map_app.
Qed.

(** X16: a successful decode consumes a non-empty prefix of the stream and
    leaves the rest untouched. *)
Theorem X16_decode_consumes_prefix (s : bytes) (v : Resp) (r : bytes) :
  read_value s = Ok v r -> exists pre, pre <> [] /\ s = pre ++ r.
Proof. apply ReadProtocol_suffix. Qed.

(** ** Witnesses for the further properties *)

Lemma X1_witness :
  read_value (bs "+OK" ++ CRLF) = Ok (SimpleResp (base SimpleType (bs "OK"))) []
  /\ constructible (SimpleResp (base SimpleType (bs "OK"))).
Proof.
  split; [reflexivity|].
  apply (X1_decoded_value_constructible (bs "+OK" ++ CRLF) _ []). reflexivity.
Defined.

Lemma X2_witness :
  exists e, WriteProtocol [] (ArrayResp ArrayType [bulk_of PING]) = WOk e /\
    forall rest, read_value (e ++ rest) = Ok (ArrayResp ArrayType [bulk_of PING]) rest.
Proof. apply (X2_decoded_value_reencodes (bs "ping" ++ CRLF) _ []). reflexivity. Defined.

Lemma X3_witness :
  Type_ (IntResp (base IntType (bs "12"))) = sigil_type ":"%char.
Proof. apply (X3_decoded_type_by_first_byte ":"%char (bs "12" ++ CRLF) _ []). reflexivity. Defined.

Lemma X4_witness : read_value (bs "PING") = Fail EIO.
Proof. apply X4_no_line_feed_read_error. cbn. intuition discriminate. Defined.


Lemma X6_witness : read_value (BulkSep :: LF :: []) = Panic.
Proof. apply X6_short_header_line_panics. cbn. auto. Defined.

Lemma X7_witness :
  read_value (SimpSep :: bs "ok" ++ "!"%char :: LF :: [])
    = Ok (SimpleResp (base SimpleType (bs "ok"))) []
  /\ read_value (ErrSep :: bs "ok" ++ "!"%char :: LF :: [])
    = Ok (ErrorResp (base ErrorType (bs "ok"))) []
  /\ read_value (IntSep :: bs "ok" ++ "!"%char :: LF :: [])
    = Ok (IntResp (base IntType (bs "ok"))) [].
Proof.
  apply X7_line_terminator_unchecked; [cbn; intuition discriminate|discriminate].
Defined.

Lemma X9_witness :
  read_value (BulkSep :: bs "x1" ++ CR :: LF :: []) = Fail EParse
  /\ read_value (ArrSep :: bs "x1" ++ CR :: LF :: []) = Fail EParse.
Proof. apply X9_length_parse_error; [reflexivity|cbn; intuition discriminate]. Defined.

Lemma X10_witness :
  read_value (ArrSep :: bs "-1" ++ CR :: LF :: bs "+OK") = Ok (ArrayResp ArrayType []) (bs "+OK").
Proof.
  apply (X10_nonpositive_array_count _ _ (-1)%Z);
    [reflexivity|lia|cbn; intuition discriminate].
Defined.

Lemma X11_witness :
  read_value (ArrSep :: bs "2" ++ CR :: LF :: bs "$3" ++ CRLF ++ bs "foo" ++ CRLF) = Fail EIO.
Proof.
  apply (X11_truncated_array_read_error _ _ 2 [bulk_of (bs "foo")]).
  - reflexivity.
  - cbn. intuition discriminate.
  - apply (db_cons _ [] []); [reflexivity|constructor].
  - cbn. lia.
Defined.

Lemma X12_witness :
  read_value (ArrSep :: bs "1" ++ CR :: LF :: bs "$5" ++ CRLF ++ bs "ab") = Fail EFraming.
Proof.
  apply (X12_short_bulk_child_framing_error _ _ (bs "$5" ++ CRLF ++ bs "ab") 1 []).
  - reflexivity.
  - cbn. intuition discriminate.
  - constructor.
  - cbn. lia.
  - reflexivity.
Defined.

Lemma X16_witness :
  exists pre, pre <> [] /\ bs "+OK" ++ CRLF ++ bs "rest" = pre ++ bs "rest".
Proof.
  apply (X16_decode_consumes_prefix _ (SimpleResp (base SimpleType (bs "OK")))).
  reflexivity.
Defined.
